(** * c10: non-owning array views, the CPU allocator and the Tensor mutators

    A shallow embedding of

    - [c10/ArrayRef.h]          (module [ArrayRef]),
    - [c10/cpu/CPUAllocator.h]  (module [cpu]),
    - [c10/Tensor.cpp] and the operations declared in
      [c10/cpu/op/CPUAll.h]     (module [op]),

    followed by the properties proved about them. *)

From Stdlib Require Import ZArith Lia QArith Qround Qminmax.
From Stdlib Require Import Strings.Byte.
From stdpp Require Import base option list strings.

Local Open Scope Z_scope.

(** * Platform *)

(** [std::size_t] is an unsigned integer of [size_bits] bits; the width is a
    parameter of the development (64 on the LP64 platforms, see [LP64]).
    A [size_t] value is a [Z] in [[0, SIZE_MODULUS)]; arithmetic on it is
    followed by [wrap]. *)
Class Platform := { size_bits : positive }.

Definition SIZE_MODULUS `{Platform} : Z := 2 ^ Z.pos size_bits.

Definition wrap `{Platform} (z : Z) : Z := z mod SIZE_MODULUS.

Definition is_size_t `{Platform} (z : Z) : Prop := 0 <= z < SIZE_MODULUS.

Definition LP64 : Platform := {| size_bits := 64 |}.

(** Addresses.  A pointer is the number of a cell of the address space, the
    null pointer is cell 0.  For a [const T *] the cells are counted in
    elements of [T], so that [p + n] is the pointer [n] elements after [p]. *)
Definition pointer := Z.
Definition nullptr : pointer := 0.

(** The pointers of the machine.  An element of [T] takes [element_size]
    bytes and cell [p] lies at the byte address [p * element_size]: the
    pointer to cell [p] is one of the machine when that address is below
    [2^w].  The sum [p + n] is the pointer arithmetic of the machine as
    long as the result is such a pointer; past it C++ leaves the arithmetic
    undefined and the machine wraps around. *)
Definition addressable `{Platform} (element_size : Z) (p : pointer) : Prop :=
  0 <= p /\ p * element_size < SIZE_MODULUS.

(** A memory of [T]s: the cells that hold an element.  Reading any other cell
    has no defined behaviour. *)
Definition memory (T : Type) := pointer -> option T.

(** The cells [base], [base+1], ... hold the elements of [l]. *)
Definition memory_of_list {T : Type} (base : pointer) (l : list T) : memory T :=
  fun p => if (base <=? p) then l !! Z.to_nat (p - base) else None.

(** Results of the operations of [ArrayRef.h]: a value, the error raised by a
    failed [C10_ASSERT], or no defined behaviour (a read outside memory). *)
Inductive Error := c10_Error (msg : string).

Inductive result (A : Type) :=
| Ret (a : A)
| Throw (e : Error)
| Undefined.
Arguments Ret {A} a.
Arguments Throw {A} e.
Arguments Undefined {A}.

#[global] Instance result_ret : MRet result := fun _ a => Ret a.

#[global] Instance result_bind : MBind result := fun _ _ k r =>
  match r with
  | Ret a => k a
  | Throw e => Throw e
  | Undefined => Undefined
  end.

(** Modelled from the spec: the macro [C10_ASSERT] of [Assert.h], which is not
    among the sources.  A failed check is surfaced to the caller as an error
    (the spec's OutOfRange and InvalidRange); the error carries the message
    given at the call. *)
Definition C10_ASSERT (cond : bool) (msg : string) : result unit :=
  if cond then Ret tt else Throw (c10_Error msg).

(** * ArrayRef.h *)

Module ArrayRef.

(** [class ArrayRef]: the start of the array, in an external buffer, and the
    number of elements. *)
Record ArrayRef (T : Type) := mkArrayRef { Data : pointer; Length : Z }.
Arguments mkArrayRef {T} Data Length.
Arguments Data {T} a.
Arguments Length {T} a.

Section ArrayRef.
Context `{Platform} {T : Type}.
Local Abbreviation ArrayRef := (ArrayRef T).

(** [ArrayRef()] *)
Definition empty_ref : ArrayRef := mkArrayRef nullptr 0.

(** [ArrayRef(const T *data, size_t length)] *)
Definition of_pointer (data : pointer) (length : Z) : ArrayRef :=
  mkArrayRef data length.


Definition begin (v : ArrayRef) : pointer := Data v.
Definition end_ (v : ArrayRef) : pointer := Data v + Length v.

Definition empty (v : ArrayRef) : bool := Length v =? 0.
Definition data (v : ArrayRef) : pointer := Data v.
Definition size (v : ArrayRef) : Z := Length v.

(** [Data[i]] *)
Definition read (m : memory T) (p : pointer) : result T :=
  match m p with
  | Some x => Ret x
  | None => Undefined
  end.

Definition front (m : memory T) (v : ArrayRef) : result T :=
  C10_ASSERT (negb (empty v)) "Empty list!" ;;
  read m (Data v + 0).

Definition back (m : memory T) (v : ArrayRef) : result T :=
  C10_ASSERT (negb (empty v)) "Empty list!" ;;
  read m (Data v + wrap (Length v - 1)).

(** [slice(size_t N, size_t M)]: the sum [N+M] is a [size_t].  The pointer
    [data()+N] is the one the machine computes as long as it is
    [addressable]. *)
Definition slice (v : ArrayRef) (N M : Z) : result ArrayRef :=
  C10_ASSERT (wrap (N + M) <=? size v) "Invalid specifier" ;;
  Ret (mkArrayRef (data v + N) M).

(** [slice(size_t N)]: the difference [size() - N] is a [size_t]. *)
Definition slice_from (v : ArrayRef) (N : Z) : result ArrayRef :=
  slice v N (wrap (size v - N)).

(** [operator[]] *)
Definition index (m : memory T) (v : ArrayRef) (Index : Z) : result T :=
  read m (Data v + Index).

(** [at(size_t Index)] *)
Definition at_ (m : memory T) (v : ArrayRef) (Index : Z) : result T :=
  C10_ASSERT (Index <? Length v) "Invalid index!" ;;
  read m (Data v + Index).

(** [vec()]: the elements [Data], ..., [Data+Length-1]. *)
Definition vec (m : memory T) (v : ArrayRef) : result (list T) :=
  match mapM (fun i => m (Data v + i)) (seqZ 0 (Length v)) with
  | Some l => Ret l
  | None => Undefined
  end.

(** [ArrayRef(const std::vector<T, A> &Vec)], for a vector whose elements
    [l] are stored from [Vec.data()] on: [Vec.size()] is a [size_t]. *)
Definition of_vector (data_ : pointer) (l : list T) : ArrayRef :=
  mkArrayRef data_ (wrap (Z.of_nat (length l))).

(** [std::equal(first1, last1, first2)] of the standard library, for the
    [n] elements from [first1] to [last1]: the elements are compared in
    turn, with the [operator==] of [T], up to the first pair that
    differs. *)
Fixpoint std_equal (eqb : T -> T -> bool) (m : memory T)
    (first1 first2 : pointer) (n : nat) : result bool :=
  match n with
  | O => Ret true
  | S n' =>
      x ← read m first1;
      y ← read m first2;
      if eqb x y then std_equal eqb m (first1 + 1) (first2 + 1) n'
      else Ret false
  end.

(** [equals(ArrayRef RHS)], for an element type whose [operator==] is
    [eqb]. *)
Definition equals (eqb : T -> T -> bool) (m : memory T) (v RHS : ArrayRef)
    : result bool :=
  if negb (Length v =? Length RHS) then Ret false
  else std_equal eqb m (begin v) (begin RHS) (Z.to_nat (end_ v - begin v)).

(** [std::reverse_iterator] of the standard library over [const T *]: it
    holds the pointer one past the element it designates; [operator*]
    reads the element before that pointer and [operator++] steps the
    pointer back. *)
Record reverse_iterator := mk_reverse_iterator { current : pointer }.

Definition reverse_deref (m : memory T) (it : reverse_iterator) : result T :=
  read m (current it - 1).

Definition reverse_next (it : reverse_iterator) : reverse_iterator :=
  mk_reverse_iterator (current it - 1).

Definition rbegin (v : ArrayRef) : reverse_iterator :=
  mk_reverse_iterator (end_ v).
Definition rend (v : ArrayRef) : reverse_iterator :=
  mk_reverse_iterator (begin v).

(** A well-formed view: its length is a [size_t]. *)
Definition well_formed (v : ArrayRef) : Prop := is_size_t (Length v).

(** [v] is a view of the elements [l], stored in [m] from [Data v] on. *)
Definition views (m : memory T) (v : ArrayRef) (l : list T) : Prop :=
  Length v = Z.of_nat (length l) /\
  forall (k : nat) (x : T), l !! k = Some x -> m (Data v + Z.of_nat k) = Some x.

(** The cells of [w] are cells of [v]. *)
Definition within (v w : ArrayRef) : Prop :=
  Data v <= Data w /\ Data w + Length w <= Data v + Length v.

End ArrayRef.
End ArrayRef.

(** * cpu/CPUAllocator.h *)

Module cpu.

(** The platform heap behind [std::malloc] and [std::free].  It is not part
    of the library: a heap is any state with the two operations.
    [std_malloc] returns the address of the block, or [nullptr] when the
    request cannot be satisfied. *)
Class Heap := {
  heap : Type;
  std_malloc : Z -> heap -> pointer * heap;
  std_free : pointer -> heap -> heap
}.

Section CPUAllocator.
Context `{Heap}.

(** [data_t], a [std::unique_ptr] to [void] with a [std::function]
    deleter: the address of the block and the routine that releases it. *)
Record data_t := mk_data_t {
  get : pointer;
  get_deleter : pointer -> heap -> heap
}.

(** [struct CPUAllocator]: the one virtual operation. *)
Class CPUAllocator := { malloc : Z -> heap -> data_t * heap }.

(** [struct SimpleCPUAllocator]: [malloc] returns the [data_t] made of
    [std::malloc(size)] and of a deleter that calls [std::free]. *)
Definition SimpleCPUAllocator : CPUAllocator :=
  {| malloc := fun size h =>
       let '(p, h') := std_malloc size h in
       (mk_data_t p (fun p => std_free p), h') |}.

End CPUAllocator.

(** A heap of [arena_limit] bytes handed out front to back; addresses start
    at [arena_base].  [BumpHeap] serves as a concrete platform. *)
Record arena := mk_arena { arena_next : Z; arena_limit : Z }.

Definition arena_base : Z := 4096.

Definition BumpHeap : Heap :=
  {| heap := arena;
     std_malloc := fun size h =>
       if (arena_next h + size <=? arena_limit h)
       then (arena_base + arena_next h,
             mk_arena (arena_next h + Z.max size 1) (arena_limit h))
       else (nullptr, h);
     std_free := fun _ h => h |}.

End cpu.

(** * cpu/op/CPUAll.h

    [CPUAll.h] declares [tensor], [copy_], [resize_], [reserve_] and
    [extend_]; their bodies, and [Tensor.h] with the classes [Tensor],
    [Storage] and [DataType], are not among the sources.  The definitions of
    this module are written from the specification, section by section. *)

Module op.

(** Modelled from the spec: the element-type tag ([DataType], declared in
    the missing [Tensor.h]), an opaque tag with a known byte width. *)
Record DataType := mkDataType { type_tag : N; itemsize : Z }.

(** Modelled from the spec: the error kinds of the Tensor operations
    (section 7). *)
Inductive failure :=
| AllocationFailure
| ShapeMismatch
| InvalidArgument
| CapacityExceeded.

(** Modelled from the spec: how a call of a Tensor operation ends: normally,
    with one of the failures, or in a way the specification does not
    describe. *)
Inductive outcome :=
| Done
| Failed (e : failure)
| Unspecified.

(** Modelled from the spec: the Allocator contract (section 4.2).
    [allocate n] is a block of [n] bytes, of unspecified contents, or
    [None] for AllocationFailure.  (The failure is the specification's:
    [cpu.SimpleCPUAllocator], the allocator of the sources, has none and
    returns a null block.) *)
Record Allocator := mkAllocator {
  allocate : Z -> option (list byte);
  allocate_size : forall n block,
    allocate n = Some block -> Z.of_nat (length block) = n
}.

(** Modelled from the spec: the growth target
    [currentCapacity * (1 + growthPct/100)] of [extend_] (section 4.4).
    [growthPct] is a [double]; it is read as the rational number it denotes
    and the product is taken exactly.  A capacity is a whole number of
    bytes; how a product that is not whole becomes one is not described and
    is left to [to_bytes], any rounding to a whole number less than one
    byte away (down, up, towards zero or to the nearest). *)
Record Growth := mkGrowth {
  to_bytes : Q -> Z;
  to_bytes_near : forall q,
    (inject_Z (to_bytes q - 1) < q)%Q /\ (q < inject_Z (to_bytes q + 1))%Q
}.

Definition growth_product (current_capacity : Z) (growthPct : Q) : Q :=
  (inject_Z current_capacity * (1 + growthPct / 100))%Q.

(** Modelled from the spec: Storage (section 4.3), a block of bytes whose
    capacity is its length.  Storages are numbered in the order of their
    allocation; a Storage reference is the number.  The release of a
    Storage that no Tensor references any more is not modelled. *)
Abbreviation Storage := (list byte).
Abbreviation Store := (list (list byte)).

Definition capacity (block : Storage) : Z := Z.of_nat (length block).

(** Modelled from the spec: Tensor (section 3).  Offsets and strides are
    in bytes. *)
Record Tensor := mkTensor {
  storage : nat;
  dtype : DataType;
  offset : Z;
  shape : list Z;
  strides : list Z
}.

Definition state : Type := Tensor * Store.

(** Modelled from the spec: the flat byte offset of a multi-index,
    [sum index[k] * stride[k]] (section 8). *)
Fixpoint flat_offset (index stride : list Z) : Z :=
  match index, stride with
  | i :: index', s :: stride' => i * s + flat_offset index' stride'
  | _, _ => 0
  end.

(** Modelled from the spec: a valid multi-index of a shape has one index
    per dimension, each from 0 up to the extent, excluded. *)
Definition valid_index (size index : list Z) : Prop :=
  Forall2 (fun i n => 0 <= i < n) index size.

(** The largest flat offset of a valid multi-index: in each dimension the
    last index when the stride is positive, the first otherwise. *)
Fixpoint span (size stride : list Z) : Z :=
  match size, stride with
  | n :: size', s :: stride' => Z.max 0 ((n - 1) * s) + span size' stride'
  | _, _ => 0
  end.

(** Modelled from the spec: the maximum reachable byte extent of a shape
    and strides (section 4.4): the largest [flat_offset + width] over the
    valid multi-indices, 0 when there is none, that is when some extent is
    not positive (see [flat_offset_in_extent] and [span_reached]). *)
Definition byte_extent (width : Z) (size stride : list Z) : Z :=
  if forallb (Z.ltb 0) size then span size stride + width else 0.

(** Modelled from the spec: the default strides, row-major contiguous:
    the rightmost stride is the element width, every other stride is the
    next stride times the next extent. *)
Fixpoint contiguous_strides (width : Z) (size : list Z) : list Z :=
  match size with
  | [] => []
  | _ :: rest =>
      let tail := contiguous_strides width rest in
      match rest, tail with
      | next_extent :: _, next_stride :: _ => next_stride * next_extent :: tail
      | _, _ => width :: tail
      end
  end.


(** Modelled from the spec: the byte extent of its Storage that a Tensor
    reports as logically valid (section 3): from the start of the Storage to
    the end of the last reachable element. *)
Definition logical_bytes (t : Tensor) : Z :=
  offset t + byte_extent (itemsize (dtype t)) (shape t) (strides t).

(** [dst] with its first [n] bytes replaced by those of [src]. *)
Definition memcpy (dst src : Storage) (n : Z) : Storage :=
  take (Z.to_nat n) src ++ drop (Z.to_nat n) dst.

(** Modelled from the spec: the reallocation step shared by the mutators
    (section 4.4, [resize_]): a new Storage of [new_capacity] bytes from
    the Allocator; with [keep_data] the smaller of the old logical byte
    extent and the new capacity is copied from the old Storage [old];
    the Tensor then references the new Storage at offset 0.  The
    allocation comes first: when it fails nothing has changed.  A copy of
    more bytes than the old Storage holds is not described. *)
Definition reallocate (A : Allocator) (s : state) (old : Storage)
    (new_capacity : Z) (keep_data : bool) : outcome * state :=
  let '(t, h) := s in
  match allocate A new_capacity with
  | None => (Failed AllocationFailure, s)
  | Some fresh =>
      let n := Z.min (logical_bytes t) new_capacity in
      if keep_data && negb ((0 <=? n) && (n <=? capacity old))
      then (Unspecified, s)
      else
        let block := if keep_data then memcpy fresh old n else fresh in
        (Done, (mkTensor (length h) (dtype t) 0 (shape t) (strides t),
                h ++ [block]))
  end.

Arguments reallocate : simpl never.

Definition set_size_and_stride (t : Tensor) (size stride : list Z) : Tensor :=
  mkTensor (storage t) (dtype t) (offset t) size stride.

(** Modelled from the spec: [resize_] (section 4.4). *)
Definition resize_ (A : Allocator) (s : state)
    (new_size new_stride : list Z) (keep_data : bool) : outcome * state :=
  let '(t, h) := s in
  if negb (length new_size =? length new_stride)%nat
  then (Failed ShapeMismatch, s)
  else
    match h !! storage t with
    | None => (Unspecified, s)
    | Some old =>
        let required :=
          offset t + byte_extent (itemsize (dtype t)) new_size new_stride in
        let '(r, (t', h')) :=
          if capacity old <? required
          then reallocate A s old required keep_data
          else (Done, s) in
        match r with
        | Done => (Done, (set_size_and_stride t' new_size new_stride, h'))
        | _ => (r, s)
        end
    end.

(** Modelled from the spec: [reserve_] (section 4.4). *)
Definition reserve_ (A : Allocator) (s : state) (new_size : list Z)
    : outcome * state :=
  let '(t, h) := s in
  match h !! storage t with
  | None => (Unspecified, s)
  | Some old =>
      let width := itemsize (dtype t) in
      let required :=
        offset t + byte_extent width new_size (contiguous_strides width new_size) in
      if capacity old <? required
      then reallocate A s old required true
      else (Done, s)
  end.

(** Modelled from the spec: [extend_] (section 4.4).  A Tensor without
    dimensions has no first dimension to extend; the specification does
    not describe that call. *)
Definition extend_ (A : Allocator) (G : Growth) (s : state)
    (num : Z) (growthPct : Q) : outcome * state :=
  let '(t, h) := s in
  if (num <? 0) || negb (Qle_bool 0 growthPct)
  then (Failed InvalidArgument, s)
  else
    match shape t, h !! storage t with
    | extent0 :: rest, Some old =>
        let new_size := extent0 + num :: rest in
        let required :=
          offset t + byte_extent (itemsize (dtype t)) new_size (strides t) in
        let '(r, (t', h')) :=
          if capacity old <? required
          then reallocate A s old
                 (Z.max required
                    (to_bytes G (growth_product (capacity old) growthPct)))
                 true
          else (Done, s) in
        match r with
        | Done => (Done, (set_size_and_stride t' new_size (strides t), h'))
        | _ => (r, s)
        end
    | _, _ => (Unspecified, s)
    end.

(** The first [n] bytes of [src] written over [block] from byte [start]
    on. *)
Definition overwrite (block : Storage) (start : Z) (src : list byte) (n : Z)
    : Storage :=
  take (Z.to_nat start) block
  ++ take (Z.to_nat n) src
  ++ drop (Z.to_nat (start + n)) block.

(** Modelled from the spec: [copy_] (section 4.4).  The source pointer is
    [None] when null, and otherwise the bytes readable from it.  Where both
    failure conditions hold, neither the specification nor the sources say
    which failure results: [null_first] tells whether the null source is
    found before the lack of capacity, and the properties are proved for
    both orders.  A negative [size_bytes], a negative offset and a source
    shorter than [size_bytes] are not described. *)
Definition copy_ (null_first : bool) (s : state) (d : DataType)
    (p : option (list byte)) (size_bytes : Z) : outcome * state :=
  let '(t, h) := s in
  match h !! storage t with
  | None => (Unspecified, s)
  | Some block =>
      let over := capacity block <? offset t + size_bytes in
      let null :=
        match p with
        | None => 0 <? size_bytes
        | Some _ => false
        end in
      if over && null
      then (Failed (if null_first then InvalidArgument else CapacityExceeded), s)
      else if over then (Failed CapacityExceeded, s)
      else if null then (Failed InvalidArgument, s)
      else
        match p with
        | None =>
            if size_bytes <? 0 then (Unspecified, s)
            else (Done, (mkTensor (storage t) d (offset t) (shape t) (strides t), h))
        | Some src =>
            if (0 <=? size_bytes) && (size_bytes <=? Z.of_nat (length src))
               && (0 <=? offset t)
            then
              (Done, (mkTensor (storage t) d (offset t) (shape t) (strides t),
                      <[storage t := overwrite block (offset t) src size_bytes]> h))
            else (Unspecified, s)
        end
  end.

(** Modelled from the spec: the creation of a Tensor (section 3, "created
    with a given element-type tag and zero or more dimensions").  The
    constructor that [CPUAll.h] declares, [tensor(DataType)], is given the
    element type alone: the Tensor it makes has no dimension, offset 0 and
    a new Storage that holds its one element; it gets a shape from
    [resize_]. *)
Definition tensor (A : Allocator) (h : Store) (d : DataType)
    : failure + state :=
  match allocate A (byte_extent (itemsize d) [] []) with
  | None => inl AllocationFailure
  | Some block => inr (mkTensor (length h) d 0 [] [], h ++ [block])
  end.



End op.

(** * Tensor.cpp

    The methods of [Tensor] hand over to the CPU operations.  The [ArrayRef]
    arguments are passed as the lists of their elements. *)

Module Tensor.

Definition resize_ (A : op.Allocator) (self : op.state)
    (size stride : list Z) (keep_data : bool) : op.outcome * op.state :=
  op.resize_ A self size stride keep_data.

Definition copy_ (null_first : bool) (self : op.state) (dtype : op.DataType)
    (p : option (list byte)) (size_bytes : Z) : op.outcome * op.state :=
  op.copy_ null_first self dtype p size_bytes.

Definition extend_ (A : op.Allocator) (G : op.Growth) (self : op.state)
    (num : Z) (growthPct : Q) : op.outcome * op.state :=
  op.extend_ A G self num growthPct.

Definition reserve_ (A : op.Allocator) (self : op.state) (new_size : list Z)
    : op.outcome * op.state :=
  op.reserve_ A self new_size.

End Tensor.

(** * Concrete collaborators

    An Allocator with a budget, an exact growth computation and an element
    type, on which the operations can be run. *)

Module sample.

(** Requests of up to [limit] bytes succeed; the new block is filled with
    the byte ff. *)
Definition bounded_allocate (limit n : Z) : option (list byte) :=
  if (0 <=? n) && (n <=? limit)
  then Some (replicate (Z.to_nat n) xff)
  else None.

Definition bounded_allocator (limit : Z) : op.Allocator :=
  op.mkAllocator (bounded_allocate limit)
    ltac:(intros n block; unfold bounded_allocate;
          destruct (0 <=? n) eqn:E0; simpl; [|discriminate];
          destruct (n <=? limit); [|discriminate];
          intros [= <-]; rewrite length_replicate; lia).

(** Products that are not whole are rounded up to whole bytes. *)
Definition exact_growth : op.Growth :=
  op.mkGrowth Qceiling
    ltac:(intros q; split;
          [apply Qceiling_lt
          |apply Qle_lt_trans with (inject_Z (Qceiling q));
           [apply Qle_ceiling | rewrite <- Zlt_Qlt; lia]]).

Definition float32 : op.DataType := op.mkDataType 0 4.

Definition A100 : op.Allocator := bounded_allocator 100.

(** A 2x3 and a 3x3 Tensor of [float32], alone in the store; their
    Storages, of 24 and of 36 bytes, hold the byte 2a. *)
Definition block24 : list byte := replicate 24 x2a.
Definition t23 : op.Tensor := op.mkTensor 0 float32 0 [2; 3] [12; 4].
Definition s23 : op.state := (t23, [block24]).

(** Five integers stored from cell 100 on, and the view of them. *)
Definition five : list Z := [10; 20; 30; 40; 50].
Definition five_memory : memory Z := memory_of_list 100 five.
Definition five_ref : ArrayRef.ArrayRef Z := ArrayRef.mkArrayRef 100 5.

End sample.

(** * Properties of ArrayRef *)

Section ArrayRefFacts.
Context `{Platform} {T : Type}.
Import ArrayRef.

Lemma SIZE_MODULUS_ge_2 : 2 <= SIZE_MODULUS.
Proof.
  unfold SIZE_MODULUS.
  change 2 with (2 ^ 1) at 1.
  apply Z.pow_le_mono_r; lia.
Qed.

Lemma wrap_small z : is_size_t z -> wrap z = z.
Proof. intros Hz. apply Z.mod_small, Hz. Qed.

Lemma wrap_is_size_t z : is_size_t (wrap z).
Proof. apply Z.mod_pos_bound. pose proof SIZE_MODULUS_ge_2. lia. Qed.

(** A sum of two [size_t]s that is at least the modulus wraps once. *)
Lemma wrap_add_overflow a b :
  is_size_t a -> is_size_t b -> SIZE_MODULUS <= a + b ->
  wrap (a + b) = a + b - SIZE_MODULUS.
Proof.
  unfold is_size_t, wrap. intros Ha Hb Hab.
  symmetry. apply (Z.mod_unique _ _ 1); lia.
Qed.

(** A difference of two [size_t]s that is negative wraps once. *)
Lemma wrap_sub_underflow a b :
  is_size_t a -> is_size_t b -> a < b ->
  wrap (a - b) = a - b + SIZE_MODULUS.
Proof.
  unfold is_size_t, wrap. intros Ha Hb Hab.
  symmetry. apply (Z.mod_unique _ _ (-1)); lia.
Qed.

(** [slice] is decided by the wrapped sum alone. *)
Lemma slice_accepts (v : ArrayRef T) N M :
  wrap (N + M) <= size v ->
  slice v N M = Ret (mkArrayRef (data v + N) M).
Proof.
  intros Hle. unfold slice.
  apply Z.leb_le in Hle. rewrite Hle. reflexivity.
Qed.

Lemma slice_rejects (v : ArrayRef T) N M :
  size v < wrap (N + M) ->
  slice v N M = Throw (c10_Error "Invalid specifier").
Proof.
  intros Hlt. unfold slice.
  apply Z.leb_gt in Hlt. rewrite Hlt. reflexivity.
Qed.

(** Without overflow the check is the one of the documentation. *)
Lemma slice_in_range (v : ArrayRef T) N M :
  well_formed v -> 0 <= N -> 0 <= M -> N + M <= size v ->
  slice v N M = Ret (mkArrayRef (data v + N) M).
Proof.
  intros Hv HN HM Hle. apply slice_accepts.
  rewrite wrap_small; [exact Hle|].
  unfold well_formed, is_size_t, size in *. lia.
Qed.

Lemma slice_out_of_range (v : ArrayRef T) N M :
  is_size_t (N + M) -> size v < N + M ->
  slice v N M = Throw (c10_Error "Invalid specifier").
Proof.
  intros Hs Hlt. apply slice_rejects. rewrite wrap_small; assumption.
Qed.

(** The elements of a slice are those of the view, [N] places on. *)
Lemma slice_index (m : memory T) (v w : ArrayRef T) N M i :
  slice v N M = Ret w ->
  size w = M /\ index m w i = index m v (N + i).
Proof.
  unfold slice. destruct (wrap (N + M) <=? size v); simpl; [|discriminate].
  intros [= <-]. split; [reflexivity|].
  unfold index, data. simpl. f_equal. lia.
Qed.

End ArrayRefFacts.

Section ArrayRefClaims.
Context `{Platform} {T : Type}.
Import ArrayRef.

Lemma views_memory_of_list (base : pointer) (l : list T) :
  views (memory_of_list base l) (mkArrayRef base (Z.of_nat (length l))) l.
Proof.
  split; [reflexivity|].
  intros k x Hk. unfold memory_of_list. simpl.
  replace (base <=? base + Z.of_nat k) with true
    by (symmetry; apply Z.leb_le; lia).
  replace (Z.to_nat (base + Z.of_nat k - base)) with k by lia.
  exact Hk.
Qed.

Lemma at_in_range (m : memory T) (v : ArrayRef T) i :
  i < size v -> at_ m v i = index m v i.
Proof.
  intros Hi. unfold at_, index, size in *.
  apply Z.ltb_lt in Hi. rewrite Hi. reflexivity.
Qed.

(** C9: [at(i)] fails with the error "Invalid index!" (OutOfRange) for
    every [i >= size()], in particular for every [i] on an empty view;
    for [i < size()] it returns the element [Data[i]], which is the i-th
    element of the list the view denotes; [front()] and [back()] fail
    with the error "Empty list!" (OutOfRange) on an empty view. *)
Theorem at_front_back_checked (m : memory T) (v : ArrayRef T) :
  (forall i, size v <= i -> at_ m v i = Throw (c10_Error "Invalid index!")) /\
  (forall i, i < size v -> at_ m v i = index m v i) /\
  (forall l (k : nat) x,
      views m v l -> l !! k = Some x -> at_ m v (Z.of_nat k) = Ret x) /\
  (size v = 0 ->
     front m v = Throw (c10_Error "Empty list!") /\
     back m v = Throw (c10_Error "Empty list!")).
Proof.
  split; [|split; [|split]].
  - intros i Hi. unfold at_, size in *.
    apply Z.ltb_ge in Hi. rewrite Hi. reflexivity.
  - intros i Hi. apply at_in_range, Hi.
  - intros l k x [Hlen Hcells] Hk.
    rewrite at_in_range.
    + unfold index, read. rewrite (Hcells _ _ Hk). reflexivity.
    + unfold size. rewrite Hlen.
      apply lookup_lt_Some in Hk. lia.
  - intros Hempty. unfold front, back, empty, size in *.
    rewrite Hempty. split; reflexivity.
Qed.

(** C10: the bounds check of [slice(N, M)] is made on [N + M] modulo
    [2^w]: whenever the wrapped sum is at most [size()] the call does not
    fail and returns a view of [M] elements.  So for [N > size()] and a sum
    that wraps around to at most [size()] the check passes; where
    [data() + N] is a pointer of the machine, the view returned is
    [(data() + N, M)], which is not empty and starts past the end of the
    original view; and there are such views and arguments.  And [slice(N)]
    fails for no [N > size()]: [size() - N] underflows, [N + (size() - N)]
    wraps back to [size()], and the call returns a view of
    [size() - N + 2^w] elements, which, where [data() + N] is a pointer of
    the machine, starts there, past the end of the original view.
    ([element_size] is [sizeof(T)], a [size_t] that is not 0.) *)
Theorem slice_bounds_check_wraps (element_size : Z) :
  0 < element_size < SIZE_MODULUS ->
  (forall (v : ArrayRef T) N M,
      wrap (N + M) <= size v ->
      exists w, slice v N M = Ret w /\ size w = M) /\
  (forall (v : ArrayRef T) N M,
      well_formed v -> is_size_t N -> is_size_t M ->
      size v < N -> SIZE_MODULUS <= N + M <= SIZE_MODULUS + size v ->
      addressable element_size (data v) ->
      addressable element_size (data v + N) ->
      wrap (N + M) <= size v /\
      slice v N M = Ret (mkArrayRef (data v + N) M) /\
      0 < M /\ end_ v < data v + N) /\
  (exists (v : ArrayRef T) N M,
      well_formed v /\ is_size_t N /\ is_size_t M /\
      size v < N /\ SIZE_MODULUS <= N + M <= SIZE_MODULUS + size v /\
      addressable element_size (data v) /\
      addressable element_size (data v + N)) /\
  (forall (v : ArrayRef T) N,
      well_formed v -> is_size_t N -> size v < N ->
      wrap (N + wrap (size v - N)) = size v /\
      (exists w,
          slice_from v N = Ret w /\ size w = size v - N + SIZE_MODULUS) /\
      (addressable element_size (data v) ->
       addressable element_size (data v + N) ->
       slice_from v N
       = Ret (mkArrayRef (data v + N) (size v - N + SIZE_MODULUS)) /\
       end_ v < data v + N)).
Proof.
  intros Hsize.
  split; [|split; [|split]].
  - intros v N M Hle. eexists. split; [apply slice_accepts, Hle|reflexivity].
  - intros v N M Hv HN HM Hlt Hsum _ _.
    assert (Hw : wrap (N + M) = N + M - SIZE_MODULUS)
      by (apply wrap_add_overflow; (assumption || lia)).
    unfold well_formed, is_size_t, size, end_, data in *.
    split; [lia|]. split; [|lia].
    apply slice_accepts. unfold size. lia.
  - exists (mkArrayRef nullptr 0), 1, (SIZE_MODULUS - 1).
    unfold well_formed, is_size_t, addressable, size, data, nullptr. simpl.
    lia.
  - intros v N Hv HN Hlt.
    unfold well_formed, size in *.
    assert (Hsub : wrap (Length v - N) = Length v - N + SIZE_MODULUS)
      by (apply wrap_sub_underflow; assumption).
    assert (Hsum : wrap (N + wrap (Length v - N)) = Length v).
    { rewrite Hsub. unfold is_size_t in *.
      rewrite wrap_add_overflow; unfold is_size_t; lia. }
    assert (Hcall : slice_from v N
                    = Ret (mkArrayRef (data v + N)
                             (Length v - N + SIZE_MODULUS))).
    { unfold slice_from, size. rewrite Hsub.
      apply slice_accepts. unfold size. rewrite <- Hsub, Hsum. lia. }
    split; [exact Hsum|]. split.
    + eexists. split; [exact Hcall|reflexivity].
    + intros _ _. split; [exact Hcall|].
      unfold end_, data, is_size_t in *. lia.
Qed.

End ArrayRefClaims.

Section ArrayRefLP64.
Import ArrayRef sample.
Existing Instance LP64.

Lemma at_front_back_checked_witness :
  at_ five_memory five_ref 5 = Throw (c10_Error "Invalid index!") /\
  at_ five_memory five_ref 2 = Ret 30 /\
  front five_memory (mkArrayRef nullptr 0) = Throw (c10_Error "Empty list!") /\
  back five_memory (mkArrayRef nullptr 0) = Throw (c10_Error "Empty list!").
Proof.
  destruct (at_front_back_checked five_memory five_ref)
    as (Hge & _ & Hview & _).
  destruct (at_front_back_checked five_memory (mkArrayRef nullptr 0))
    as (_ & _ & _ & Hempty).
  split; [apply Hge; simpl; lia|].
  split; [apply (Hview five 2%nat 30);
          [apply (views_memory_of_list 100 five) | reflexivity]|].
  apply Hempty. reflexivity.
Defined.

Lemma slice_bounds_check_wraps_witness :
  slice five_ref 6 (2 ^ 64 - 1) = Ret (mkArrayRef 106 (2 ^ 64 - 1)) /\
  end_ five_ref < 106 /\
  slice_from five_ref 6 = Ret (mkArrayRef 106 (2 ^ 64 - 1)).
Proof.
  destruct (slice_bounds_check_wraps (T := Z) 8) as (_ & Hover & _ & Hfrom);
    [vm_compute; split; congruence|].
  destruct (Hover five_ref 6 (2 ^ 64 - 1)) as (_ & Hslice & _ & Hpast);
    [vm_compute; split; congruence | vm_compute; split; congruence
    | vm_compute; split; congruence | simpl; lia
    | vm_compute; split; congruence
    | vm_compute; split; congruence | vm_compute; split; congruence |].
  destruct (Hfrom five_ref 6) as (_ & _ & Haddressable);
    [vm_compute; split; congruence | vm_compute; split; congruence
    | simpl; lia |].
  destruct Haddressable as [Hslice_from _];
    [vm_compute; split; congruence | vm_compute; split; congruence |].
  split; [exact Hslice|]. split; [exact Hpast | exact Hslice_from].
Defined.

(** C8, where the code departs from it: on a view of 5 elements
    [slice(6, 2^64 - 1)], which is the call that [slice(6)] makes, has
    [start + count > size()] and yet does not fail: it returns the view of
    [2^64 - 1] elements that starts 6 elements on.  ([slice_in_range] and
    [slice_out_of_range] are the claim for sums below [2^64].) *)
Theorem slice_overflow_accepted :
  size five_ref < 6 + (2 ^ 64 - 1) /\
  is_size_t 6 /\ is_size_t (2 ^ 64 - 1) /\
  slice five_ref 6 (2 ^ 64 - 1) = Ret (mkArrayRef 106 (2 ^ 64 - 1)).
Proof.
  split; [simpl; lia|].
  split; [vm_compute; split; congruence|].
  split; [vm_compute; split; congruence|].
  apply slice_accepts. vm_compute. discriminate.
Qed.

End ArrayRefLP64.

(** * Properties of the CPU allocator *)

Section AllocatorClaims.
Import cpu.

(** C4, as the code has it: [SimpleCPUAllocator::malloc] raises no error
    and makes no check.  It returns the block made of the address that the
    platform's [malloc] returned and of a deleter that calls the platform's
    [free], and leaves the heap as [malloc] left it; so the address of the
    block is null exactly when the platform could not satisfy the
    request. *)
Theorem SimpleCPUAllocator_malloc_unchecked `{Heap} (size : Z) (h : heap) :
  let r := malloc (CPUAllocator := SimpleCPUAllocator) size h in
  get (fst r) = fst (std_malloc size h) /\
  snd r = snd (std_malloc size h) /\
  (forall p h', get_deleter (fst r) p h' = std_free p h') /\
  (get (fst r) = nullptr <-> fst (std_malloc size h) = nullptr).
Proof.
  simpl. destruct (std_malloc size h) as [p h']. simpl.
  repeat split; auto.
Qed.

(** On a heap of 2^20 bytes a request for 2^40 bytes is answered with a
    block whose address is null. *)
Lemma SimpleCPUAllocator_malloc_null :
  get (fst (malloc (H := BumpHeap) (CPUAllocator := SimpleCPUAllocator)
              (2 ^ 40) (mk_arena 0 (2 ^ 20)))) = nullptr /\
  ~ (forall (H : Heap) (size : Z) (h : heap),
        get (fst (malloc (CPUAllocator := SimpleCPUAllocator) size h))
        <> nullptr).
Proof.
  split; [reflexivity|].
  intros Hall.
  apply (Hall BumpHeap (2 ^ 40) (mk_arena 0 (2 ^ 20))). reflexivity.
Qed.

End AllocatorClaims.

(** * Properties of the layout functions *)

Section Layout.
Import op.

Lemma valid_index_length size index :
  valid_index size index -> length index = length size.
Proof. apply Forall2_length. Qed.



(** ... and some valid multi-index reaches it, when there is one at all. *)
Lemma span_reached size :
  forallb (Z.ltb 0) size = true ->
  forall stride, length stride = length size ->
  exists index, valid_index size index /\
                flat_offset index stride = span size stride.
Proof.
  induction size as [|n size IH]; intros Hpos stride Hlen.
  - exists []. split; [constructor|]. destruct stride; reflexivity.
  - simpl in Hpos. apply andb_true_iff in Hpos as [Hn Hpos].
    apply Z.ltb_lt in Hn.
    destruct stride as [|s stride]; [discriminate|].
    injection Hlen as Hlen.
    destruct (IH Hpos stride Hlen) as (index & Hvalid & Hflat).
    exists ((if 0 <=? s then n - 1 else 0) :: index). split.
    + constructor; [|exact Hvalid]. destruct (0 <=? s); lia.
    + simpl. rewrite Hflat.
      destruct (0 <=? s) eqn:Hs; [apply Z.leb_le in Hs|apply Z.leb_gt in Hs];
        nia.
Qed.


Lemma span_nonneg size stride : 0 <= span size stride.
Proof.
  revert stride. induction size as [|n size IH]; intros [|s stride]; simpl;
    try lia.
  specialize (IH stride). lia.
Qed.

Lemma byte_extent_nonneg width size stride :
  0 <= width -> 0 <= byte_extent width size stride.
Proof.
  intros Hw. unfold byte_extent.
  pose proof (span_nonneg size stride).
  destruct (forallb _ size); lia.
Qed.








End Layout.

(** * Properties of the Tensor operations *)

Section Reallocation.
Import op.

Lemma memcpy_capacity dst src n :
  0 <= n <= capacity src -> n <= capacity dst ->
  capacity (memcpy dst src n) = capacity dst.
Proof.
  unfold capacity, memcpy. intros Hsrc Hdst.
  rewrite length_app, length_take, length_drop. lia.
Qed.

Lemma memcpy_lookup dst src n (i : nat) :
  n <= capacity src -> Z.of_nat i < n ->
  memcpy dst src n !! i = src !! i.
Proof.
  unfold capacity, memcpy. intros Hsrc Hi.
  rewrite lookup_app_l by (rewrite length_take; lia).
  apply lookup_take_lt. lia.
Qed.

(** What a completed reallocation has done. *)
Lemma reallocate_Done A t h old c keep s' :
  reallocate A (t, h) old c keep = (Done, s') ->
  exists fresh block,
    allocate A c = Some fresh /\
    s' = (mkTensor (length h) (dtype t) 0 (shape t) (strides t), h ++ [block]) /\
    capacity block = c /\
    (keep = true ->
     0 <= Z.min (logical_bytes t) c <= capacity old /\
     block = memcpy fresh old (Z.min (logical_bytes t) c)) /\
    (keep = false -> block = fresh).
Proof.
  unfold reallocate.
  destruct (allocate A c) as [fresh|] eqn:Halloc; [|discriminate].
  pose proof (allocate_size A _ _ Halloc) as Hsize.
  destruct keep; simpl.
  - destruct ((0 <=? Z.min (logical_bytes t) c)
              && (Z.min (logical_bytes t) c <=? capacity old)) eqn:Hguard;
      simpl; [|discriminate].
    apply andb_true_iff in Hguard as [H0 Hn].
    apply Z.leb_le in H0, Hn.
    intros [= <-]. eexists fresh, _.
    split; [reflexivity|]. split; [reflexivity|].
    split; [|split; [auto|discriminate]].
    rewrite memcpy_capacity; unfold capacity in *; lia.
  - intros [= <-]. exists fresh, fresh.
    split; [reflexivity|]. split; [reflexivity|].
    split; [exact Hsize|]. split; [discriminate|reflexivity].
Qed.

(** A reallocation that does not complete has changed nothing. *)
Lemma reallocate_not_Done A s old c keep r s' :
  reallocate A s old c keep = (r, s') -> r <> Done -> s' = s.
Proof.
  destruct s as [t h]. unfold reallocate.
  destruct (allocate A c) as [fresh|]; [|congruence].
  destruct (keep && _); [congruence|].
  intros [= <- <-] Hr. congruence.
Qed.

(** With the data kept, a reallocation goes through as soon as the
    Allocator grants the request and the old logical extent lies in the
    old Storage. *)
Lemma reallocate_keep A t h old c fresh :
  allocate A c = Some fresh ->
  0 <= logical_bytes t <= capacity old -> 0 <= c ->
  reallocate A (t, h) old c true
  = (Done, (mkTensor (length h) (dtype t) 0 (shape t) (strides t),
            h ++ [memcpy fresh old (Z.min (logical_bytes t) c)])).
Proof.
  intros Halloc Hlog Hc. unfold reallocate. rewrite Halloc. simpl.
  replace ((0 <=? Z.min (logical_bytes t) c)
           && (Z.min (logical_bytes t) c <=? capacity old)) with true;
    [reflexivity|].
  symmetry. apply andb_true_iff. split; apply Z.leb_le; lia.
Qed.

Lemma lookup_store_old (h : Store) (block : Storage) (k : nat) old :
  h !! k = Some old -> (h ++ [block]) !! k = Some old /\ length h <> k.
Proof.
  intros Hk. pose proof (lookup_lt_Some _ _ _ Hk).
  split; [rewrite lookup_app_l; [exact Hk|lia] | lia].
Qed.

Lemma lookup_store_new (h : Store) (block : Storage) :
  (h ++ [block]) !! length h = Some block.
Proof.
  rewrite lookup_app_r by lia. rewrite Nat.sub_diag. reflexivity.
Qed.

End Reallocation.

Section TensorClaims.
Import op.

(** The byte capacity that [resize_] requires. *)
Local Abbreviation required_bytes t size stride :=
  (offset t + byte_extent (itemsize (dtype t)) size stride).

(** C1: when [resize_] with [keep_data], on a Tensor whose logical extent
    lies in its Storage, requires more bytes than the Storage holds and the
    Allocator grants the request, the call completes; the Tensor then
    references a new Storage of exactly the required capacity, at offset 0,
    with the new shape and strides; the old Storage is still in place under
    its reference; and the first [min(old logical bytes, new capacity)]
    bytes of the new Storage are the bytes of the old one. *)
Theorem resize_keeps_data A t h old new_size new_stride fresh :
  length new_size = length new_stride ->
  h !! storage t = Some old ->
  0 <= logical_bytes t <= capacity old ->
  capacity old < required_bytes t new_size new_stride ->
  allocate A (required_bytes t new_size new_stride) = Some fresh ->
  exists block,
    Tensor.resize_ A (t, h) new_size new_stride true
    = (Done, (mkTensor (length h) (dtype t) 0 new_size new_stride,
              h ++ [block])) /\
    (h ++ [block]) !! length h = Some block /\
    length h <> storage t /\
    (h ++ [block]) !! storage t = Some old /\
    capacity block = required_bytes t new_size new_stride /\
    forall i : nat,
      Z.of_nat i < Z.min (logical_bytes t) (required_bytes t new_size new_stride) ->
      block !! i = old !! i.
Proof.
  intros Hlen Hold Hlog Hgrow Halloc.
  set (required := required_bytes t new_size new_stride) in *.
  exists (memcpy fresh old (Z.min (logical_bytes t) required)).
  destruct (lookup_store_old h (memcpy fresh old (Z.min (logical_bytes t) required))
              _ _ Hold) as [Hkept Hnew].
  split; [|split; [apply lookup_store_new|]].
  - unfold Tensor.resize_, resize_.
    rewrite Hlen, Nat.eqb_refl, Hold. simpl. fold required.
    apply Z.ltb_lt in Hgrow. rewrite Hgrow.
    rewrite (reallocate_keep A t h old required fresh Halloc Hlog)
      by (apply Z.ltb_lt in Hgrow; unfold capacity in *; lia).
    reflexivity.
  - split; [exact Hnew|]. split; [exact Hkept|]. split.
    + pose proof (allocate_size A _ _ Halloc) as Hsize.
      rewrite memcpy_capacity; unfold capacity in *; lia.
    + intros i Hi. apply memcpy_lookup; lia.
Qed.

(** C6: when the bytes that [new_size] needs, laid out contiguously from
    the current offset, fit in the Storage, [reserve_] changes nothing:
    the Tensor, its Storage reference and every Storage are as before.
    In every case the shape and the strides are left as they were and the
    old Storage is untouched; when the call completes the Storage of the
    Tensor is at least as large as before and as required, and holds the
    bytes of the old logical extent; and the call does complete when the
    Allocator grants the request. *)
Theorem reserve_noop_or_preserving A t h old new_size :
  h !! storage t = Some old ->
  let required :=
    required_bytes t new_size
      (contiguous_strides (itemsize (dtype t)) new_size) in
  (required <= capacity old ->
   Tensor.reserve_ A (t, h) new_size = (Done, (t, h))) /\
  (forall r t' h',
      Tensor.reserve_ A (t, h) new_size = (r, (t', h')) ->
      shape t' = shape t /\ strides t' = strides t /\
      h' !! storage t = Some old /\
      (r = Done ->
       exists block,
         h' !! storage t' = Some block /\
         capacity old <= capacity block /\
         required <= capacity block /\
         forall i : nat,
           Z.of_nat i < logical_bytes t -> block !! i = old !! i)) /\
  (forall fresh,
      capacity old < required ->
      0 <= logical_bytes t <= capacity old ->
      allocate A required = Some fresh ->
      fst (Tensor.reserve_ A (t, h) new_size) = Done).
Proof.
  intros Hold required.
  unfold Tensor.reserve_, reserve_. rewrite Hold. fold required.
  split; [|split].
  - intros Hfit. apply Z.ltb_ge in Hfit. rewrite Hfit. reflexivity.
  - intros r t' h'.
    destruct (capacity old <? required) eqn:Hgrow.
    + apply Z.ltb_lt in Hgrow. intros Hre.
      destruct r;
        [|apply reallocate_not_Done in Hre; [|discriminate];
          injection Hre as -> ->; repeat split; (assumption || discriminate)..].
      apply reallocate_Done in Hre
        as (fresh & block & Halloc & [= -> ->] & Hcap & Hkeep & _).
      destruct (Hkeep eq_refl) as [Hn ->].
      destruct (lookup_store_old h
                  (memcpy fresh old (Z.min (logical_bytes t) required))
                  _ _ Hold) as [Hkept _].
      simpl. repeat split; [exact Hkept|].
      intros _. eexists. split; [apply lookup_store_new|].
      split; [lia|]. split; [lia|].
      intros i Hi. apply memcpy_lookup; lia.
    + apply Z.ltb_ge in Hgrow. intros [= <- <- <-].
      repeat split; [exact Hold|].
      intros _. exists old. repeat split; [exact Hold|lia|lia].
  - intros fresh Hgrow Hlog Halloc.
    apply Z.ltb_lt in Hgrow. rewrite Hgrow.
    rewrite (reallocate_keep A t h old required fresh Halloc Hlog);
      [reflexivity|].
    apply Z.ltb_lt in Hgrow. unfold capacity in *. lia.
Qed.

(** A product that is a whole number of bytes is that number of bytes. *)
Lemma to_bytes_whole G q z : (q == inject_Z z)%Q -> to_bytes G q = z.
Proof.
  intros Hq. destruct (to_bytes_near G q) as [Hbelow Habove].
  assert (Hlow : (inject_Z (to_bytes G q - 1) < inject_Z z)%Q)
    by (apply Qlt_le_trans with q; [exact Hbelow|]; rewrite Hq; apply Qle_refl).
  assert (Hhigh : (inject_Z z < inject_Z (to_bytes G q + 1))%Q)
    by (apply Qle_lt_trans with q; [|exact Habove]; rewrite Hq; apply Qle_refl).
  rewrite <- Zlt_Qlt in Hlow, Hhigh. lia.
Qed.

(** C2, as the operations have it: for [extend_(num, growthPct)] with
    [num > 0] on a Tensor with a first dimension, whose logical extent
    lies in its Storage, the call completes when the Allocator grants the
    Storage asked for; afterwards the first extent has grown by [num], the
    capacity is at least the capacity before and at least the bytes
    required; when a reallocation is triggered the new capacity is
    [max(required, currentCapacity * (1 + growthPct/100))] in whole bytes:
    less than one byte away from it, and equal to it whenever the product
    is a whole number, which for [growthPct = 0] makes it exactly the bytes
    required; when none is
    triggered the Storage and its capacity are the ones before; and the
    bytes of the old logical extent are preserved. *)
Theorem extend_grows A G t h old extent0 rest num g :
  h !! storage t = Some old ->
  shape t = extent0 :: rest ->
  0 < num -> (0 <= g)%Q ->
  0 <= logical_bytes t <= capacity old ->
  let required := required_bytes t (extent0 + num :: rest) (strides t) in
  let product := growth_product (capacity old) g in
  let target := Z.max required (to_bytes G product) in
  (capacity old < required -> is_Some (allocate A target)) ->
  exists t' h' block,
    Tensor.extend_ A G (t, h) num g = (Done, (t', h')) /\
    shape t' = extent0 + num :: rest /\
    strides t' = strides t /\
    h' !! storage t' = Some block /\
    capacity old <= capacity block /\
    required <= capacity block /\
    (capacity old < required ->
     capacity block = target /\
     (inject_Z (capacity block - 1) < Qmax (inject_Z required) product)%Q /\
     (Qmax (inject_Z required) product < inject_Z (capacity block + 1))%Q /\
     (forall z, (product == inject_Z z)%Q -> capacity block = Z.max required z) /\
     ((g == 0)%Q -> capacity block = required)) /\
    (required <= capacity old ->
     storage t' = storage t /\ h' = h /\ block = old) /\
    forall i : nat, Z.of_nat i < logical_bytes t -> block !! i = old !! i.
Proof.
  intros Hold Hshape Hnum Hg Hlog required product target Halloc.
  unfold Tensor.extend_, extend_.
  assert (Hnum' : (num <? 0) = false) by (apply Z.ltb_ge; lia).
  apply Qle_bool_iff in Hg as Hg'.
  rewrite Hnum', Hg', Hshape, Hold. simpl.
  fold required. fold product. fold target.
  destruct (capacity old <? required) eqn:Hgrow.
  - apply Z.ltb_lt in Hgrow.
    destruct (Halloc Hgrow) as [fresh Hfresh].
    pose proof (allocate_size A _ _ Hfresh) as Hsize.
    rewrite (reallocate_keep A t h old target fresh Hfresh Hlog)
      by (unfold capacity in *; lia).
    assert (Hmin : Z.min (logical_bytes t) target = logical_bytes t) by lia.
    rewrite Hmin.
    assert (Hcap : capacity (memcpy fresh old (logical_bytes t)) = target)
      by (rewrite memcpy_capacity; unfold capacity in *; lia).
    eexists _, _, _. split; [reflexivity|]. simpl.
    split; [reflexivity|]. split; [reflexivity|].
    split; [apply lookup_store_new|].
    rewrite Hcap.
    split; [lia|]. split; [lia|]. split; [|split; [lia|]].
    + intros _. split; [reflexivity|].
      destruct (to_bytes_near G product) as [Hbelow Habove].
      split; [|split; [|split]].
      * unfold target.
        destruct (Z.max_spec required (to_bytes G product)) as [[_ ->]|[_ ->]].
        -- apply Qlt_le_trans with product; [exact Hbelow|apply Q.le_max_r].
        -- apply Qlt_le_trans with (inject_Z required);
             [rewrite <- Zlt_Qlt; lia | apply Q.le_max_l].
      * apply Q.max_lub_lt.
        -- rewrite <- Zlt_Qlt. lia.
        -- apply Qlt_le_trans with (inject_Z (to_bytes G product + 1));
             [exact Habove | rewrite <- Zle_Qle; lia].
      * intros z Hz. unfold target.
        rewrite (to_bytes_whole G _ _ Hz). reflexivity.
      * intros Hzero. unfold target.
        rewrite (to_bytes_whole G product (capacity old)); [lia|].
        unfold product, growth_product. rewrite Hzero. field.
    + intros i Hi. apply memcpy_lookup; lia.
  - apply Z.ltb_ge in Hgrow.
    exists (set_size_and_stride t (extent0 + num :: rest) (strides t)), h, old.
    split; [reflexivity|]. simpl.
    repeat split; (assumption || lia || idtac).
Qed.









End TensorClaims.

(** * The operations on concrete Tensors *)

Section TensorRuns.
Import op sample.

(** The scenario of the specification: a Tensor of 4-byte elements given
    the shape 2x3 has strides [12; 4] and 24 bytes; [extend_(1, 50)] makes
    it 3x3 with [max(36, 24 * 1.5) = 36] bytes; then 36 bytes can be copied
    in and 40 cannot. *)
Example scenario :
  exists s s0 s1 s2,
    tensor A100 [] float32 = inr s /\
    Tensor.resize_ A100 s [2; 3] (contiguous_strides 4 [2; 3]) false
    = (Done, s0) /\
    strides (fst s0) = [12; 4] /\
    (capacity <$> snd s0 !! storage (fst s0)) = Some 24 /\
    Tensor.extend_ A100 exact_growth s0 1 (inject_Z 50) = (Done, s1) /\
    shape (fst s1) = [3; 3] /\
    (capacity <$> snd s1 !! storage (fst s1)) = Some 36 /\
    Tensor.copy_ false s1 float32 (Some (replicate 36 x01)) 36 = (Done, s2) /\
    Tensor.copy_ false s1 float32 (Some (replicate 40 x01)) 40
    = (Failed CapacityExceeded, s1).
Proof. do 4 eexists. repeat split; vm_compute; reflexivity. Qed.

Lemma resize_keeps_data_witness :
  exists block,
    Tensor.resize_ A100 s23 [4; 3] [12; 4] true
    = (Done, (mkTensor 1 float32 0 [4; 3] [12; 4], [block24; block])) /\
    capacity block = 48 /\
    forall i : nat, Z.of_nat i < 24 -> block !! i = block24 !! i.
Proof.
  destruct (resize_keeps_data A100 t23 [block24] block24 [4; 3] [12; 4]
              (replicate 48 xff))
    as (block & Hcall & _ & _ & _ & Hcap & Hdata);
    [reflexivity | reflexivity | vm_compute; split; congruence
    | reflexivity | reflexivity |].
  exists block. split; [exact Hcall|]. split; [exact Hcap|]. exact Hdata.
Defined.

Lemma extend_grows_witness :
  exists t' h' block,
    Tensor.extend_ A100 exact_growth s23 1 (inject_Z 200) = (Done, (t', h')) /\
    shape t' = [3; 3] /\
    h' !! storage t' = Some block /\
    capacity block24 <= capacity block /\
    36 <= capacity block /\
    capacity block = 72.
Proof.
  destruct (extend_grows A100 exact_growth t23 [block24] block24 2 [3] 1
              (inject_Z 200))
    as (t' & h' & block & Hcall & Hshape & _ & Hblock & Hmono & Hreq
        & Hgrow & _);
    [reflexivity | reflexivity | reflexivity | vm_compute; congruence
    | vm_compute; split; congruence
    | intros _; exists (replicate 72 xff); reflexivity |].
  exists t', h', block.
  split; [exact Hcall|]. split; [exact Hshape|]. split; [exact Hblock|].
  split; [exact Hmono|]. split; [exact Hreq|].
  destruct Hgrow as (_ & _ & _ & Hwhole & _); [reflexivity|].
  apply (Hwhole 72). reflexivity.
Defined.

(** After [extend_(1, 200)] has left 72 bytes under a 3x3 Tensor,
    [extend_(1, 0)] requires 48 bytes, triggers no reallocation, and the
    capacity stays at 72. *)
Lemma extend_zero_growth_keeps_slack :
  exists s s0 s1 s2 block,
    tensor A100 [] float32 = inr s /\
    Tensor.resize_ A100 s [2; 3] (contiguous_strides 4 [2; 3]) false
    = (Done, s0) /\
    Tensor.extend_ A100 exact_growth s0 1 (inject_Z 200) = (Done, s1) /\
    Tensor.extend_ A100 exact_growth s1 1 (inject_Z 0) = (Done, s2) /\
    shape (fst s2) = [4; 3] /\
    offset (fst s2)
    + byte_extent (itemsize (dtype (fst s2))) (shape (fst s2)) (strides (fst s2))
    = 48 /\
    snd s2 !! storage (fst s2) = Some block /\
    capacity block = 72 /\
    capacity block <> 48.
Proof. do 5 eexists. repeat split; vm_compute; congruence. Qed.



Lemma reserve_noop_or_preserving_witness :
  Tensor.reserve_ A100 s23 [2; 3] = (Done, s23) /\
  fst (Tensor.reserve_ A100 s23 [4; 3]) = Done /\
  forall r t' h',
    Tensor.reserve_ A100 s23 [4; 3] = (r, (t', h')) ->
    shape t' = [2; 3] /\ strides t' = [12; 4] /\ h' !! 0%nat = Some block24.
Proof.
  destruct (reserve_noop_or_preserving A100 t23 [block24] block24 [2; 3] eq_refl)
    as (Hnoop & _).
  destruct (reserve_noop_or_preserving A100 t23 [block24] block24 [4; 3] eq_refl)
    as (_ & Hany & Hdone).
  split; [apply Hnoop; vm_compute; congruence|].
  split; [apply (Hdone (replicate 48 xff));
          [reflexivity | vm_compute; split; congruence | reflexivity]|].
  intros r t' h' Hcall.
  destruct (Hany r t' h' Hcall) as (Hshape & Hstrides & Hold & _).
  split; [exact Hshape|]. split; [exact Hstrides|]. exact Hold.
Defined.



End TensorRuns.

(** * Further properties of ArrayRef *)

Section ArrayRefViews.
Context `{Platform} {T : Type}.
Import ArrayRef.

Lemma views_read (m : memory T) (v : ArrayRef T) l (k : nat) x :
  views m v l -> l !! k = Some x -> read m (Data v + Z.of_nat k) = Ret x.
Proof.
  intros [_ Hcells] Hk. unfold read. rewrite (Hcells k x Hk). reflexivity.
Qed.

(** The cells of a viewed list, read in turn. *)
Lemma cells_mapM (m : memory T) (base : pointer) l :
  (forall (k : nat) x, l !! k = Some x -> m (base + Z.of_nat k) = Some x) ->
  mapM (fun i => m (base + i)) (seqZ 0 (Z.of_nat (length l))) = Some l.
Proof.
  intros Hcells. apply mapM_Some.
  apply Forall2_same_length_lookup_2.
  - rewrite length_seqZ. lia.
  - intros i z x Hz Hx.
    apply lookup_seqZ in Hz as [-> _]. simpl. apply Hcells, Hx.
Qed.

Lemma views_vec (m : memory T) (v : ArrayRef T) l :
  views m v l -> vec m v = Ret l.
Proof.
  intros [Hlen Hcells]. unfold vec. rewrite Hlen.
  rewrite (cells_mapM m (Data v) l Hcells). reflexivity.
Qed.

Lemma vec_views (m : memory T) (v : ArrayRef T) l :
  0 <= Length v -> vec m v = Ret l -> views m v l.
Proof.
  intros Hlen. unfold vec.
  destruct (mapM _ _) as [l'|] eqn:Hmap; [|discriminate].
  intros [= ->]. apply mapM_Some in Hmap.
  pose proof (Forall2_length _ _ _ Hmap) as Hlength.
  rewrite length_seqZ in Hlength.
  split; [lia|].
  intros k x Hk.
  destruct (Forall2_lookup_r _ _ _ _ _ Hmap Hk) as (z & Hz & Hread).
  apply lookup_seqZ in Hz as [-> _]. exact Hread.
Qed.

(** The part of a view from [N] on, [M] elements long, views the
    corresponding part of the list. *)
Lemma views_part (m : memory T) (v : ArrayRef T) l N M :
  views m v l -> 0 <= N -> 0 <= M -> N + M <= Length v ->
  views m (mkArrayRef (Data v + N) M)
    (take (Z.to_nat M) (drop (Z.to_nat N) l)).
Proof.
  intros [Hlen Hcells] HN HM Hfit. split; simpl.
  - rewrite length_take, length_drop. lia.
  - intros k x Hk.
    apply lookup_take_Some in Hk as [Hk Hlt].
    rewrite lookup_drop in Hk.
    replace (Data v + N + Z.of_nat k)
      with (Data v + Z.of_nat (Z.to_nat N + k)) by lia.
    apply Hcells, Hk.
Qed.

(** [std_equal] on the cells of two lists of [n] elements decides their
    equality. *)
Lemma std_equal_lists (eqb : T -> T -> bool) (m : memory T) :
  (forall x y, eqb x y = true <-> x = y) ->
  forall l r p q,
    length l = length r ->
    (forall (k : nat) x, l !! k = Some x -> m (p + Z.of_nat k) = Some x) ->
    (forall (k : nat) x, r !! k = Some x -> m (q + Z.of_nat k) = Some x) ->
    exists b, std_equal eqb m p q (length l) = Ret b /\ (b = true <-> l = r).
Proof.
  intros Heqb. induction l as [|x l IH]; intros [|y r] p q Hlen Hl Hr;
    try discriminate.
  - exists true. split; [reflexivity|]. split; reflexivity.
  - injection Hlen as Hlen.
    pose proof (Hl 0%nat x eq_refl) as Hx.
    pose proof (Hr 0%nat y eq_refl) as Hy.
    rewrite Z.add_0_r in Hx, Hy.
    simpl. unfold read. rewrite Hx. simpl. rewrite Hy. simpl.
    destruct (eqb x y) eqn:Hxy.
    + apply Heqb in Hxy as ->.
      destruct (IH r (p + 1) (q + 1) Hlen) as (b & Hb & Hiff).
      * intros k z Hk. replace (p + 1 + Z.of_nat k) with (p + Z.of_nat (S k)) by lia.
        apply Hl, Hk.
      * intros k z Hk. replace (q + 1 + Z.of_nat k) with (q + Z.of_nat (S k)) by lia.
        apply Hr, Hk.
      * exists b. split; [exact Hb|].
        rewrite Hiff. split; [intros ->; reflexivity | intros [= ->]; reflexivity].
    + exists false. split; [reflexivity|].
      split; [discriminate|].
      intros [= -> _]. assert (eqb y y = true) by (apply Heqb; reflexivity).
      congruence.
Qed.

End ArrayRefViews.

Section ArrayRefExtras.
Context `{Platform} {T : Type}.
Import ArrayRef.

(** X1: on a well-formed view of a list that is not empty, [front()]
    returns the first element of the list and [back()] the last. *)
Theorem front_back_elements (m : memory T) (v : ArrayRef T) l x y :
  well_formed v -> views m v l ->
  head l = Some x -> last l = Some y ->
  front m v = Ret x /\ back m v = Ret y.
Proof.
  intros Hv Hviews Hhead Hlast.
  pose proof Hviews as [Hlen _].
  rewrite head_lookup in Hhead. rewrite last_lookup in Hlast.
  pose proof (lookup_lt_Some _ _ _ Hhead) as Hpos.
  assert (Hne : empty v = false) by (unfold empty; apply Z.eqb_neq; lia).
  unfold front, back. rewrite Hne. simpl. split.
  - apply (views_read m v l 0%nat x Hviews Hhead).
  - rewrite wrap_small by (unfold well_formed, is_size_t in *; lia).
    replace (Length v - 1) with (Z.of_nat (pred (length l))) by lia.
    apply (views_read m v l _ y Hviews Hlast).
Qed.

(** X2: for [N + M <= size()], [slice(N, M)] of a well-formed view of a
    list returns a view of [M] elements inside the original one, whose
    elements, as [vec()] returns them, are the [M] elements of the list
    from position [N] on. *)
Theorem slice_views_part (m : memory T) (v : ArrayRef T) l N M :
  well_formed v -> views m v l ->
  0 <= N -> 0 <= M -> N + M <= size v ->
  exists w,
    slice v N M = Ret w /\
    size w = M /\
    within v w /\
    views m w (take (Z.to_nat M) (drop (Z.to_nat N) l)) /\
    vec m w = Ret (take (Z.to_nat M) (drop (Z.to_nat N) l)).
Proof.
  intros Hv Hviews HN HM Hfit.
  exists (mkArrayRef (data v + N) M).
  pose proof (views_part m v l N M Hviews HN HM Hfit) as Hpart.
  split; [apply slice_in_range; assumption|].
  split; [reflexivity|].
  split; [unfold within, data, size in *; simpl; lia|].
  split; [exact Hpart | apply views_vec, Hpart].
Qed.

(** X3: for [N <= size()], [slice(N)] of a well-formed view of a list
    returns the view of the [size() - N] elements left when the first [N]
    are chopped off. *)
Theorem slice_from_views_suffix (m : memory T) (v : ArrayRef T) l N :
  well_formed v -> views m v l -> 0 <= N <= size v ->
  exists w,
    slice_from v N = Ret w /\
    size w = size v - N /\
    within v w /\
    views m w (drop (Z.to_nat N) l).
Proof.
  intros Hv Hviews HN.
  exists (mkArrayRef (data v + N) (size v - N)).
  assert (Hsub : wrap (size v - N) = size v - N)
    by (apply wrap_small; unfold well_formed, is_size_t, size in *; lia).
  split; [unfold slice_from; rewrite Hsub; apply slice_in_range; lia || assumption|].
  split; [reflexivity|].
  split; [unfold within, data, size in *; simpl; lia|].
  pose proof (views_part m v l N (size v - N) Hviews) as Hpart.
  rewrite take_ge in Hpart
    by (destruct Hviews as [Hlen _]; rewrite length_drop;
        unfold size in *; lia).
  apply Hpart; unfold size in *; lia.
Qed.

(** X4: slices compose.  For [N + M <= size()] and [N' + M' <= M], the
    slice [(N', M')] of the slice [(N, M)] is the slice [(N + N', M')] of
    the view, and lies inside both; and [slice(N, M)] is the slice
    [(0, M)] of [slice(N)]. *)
Theorem slice_of_slice (v : ArrayRef T) N M N' M' :
  well_formed v ->
  0 <= N -> 0 <= M -> N + M <= size v ->
  0 <= N' -> 0 <= M' -> N' + M' <= M ->
  exists w u s,
    slice v N M = Ret w /\
    slice w N' M' = Ret u /\
    slice v (N + N') M' = Ret u /\
    within w u /\ within v u /\
    slice_from v N = Ret s /\
    slice s 0 M = Ret w.
Proof.
  intros Hv HN HM Hfit HN' HM' Hfit'.
  assert (Hbound : is_size_t M /\ is_size_t (size v - N))
    by (unfold well_formed, is_size_t, size in *; lia).
  destruct Hbound as [HMs Hrest].
  exists (mkArrayRef (data v + N) M),
    (mkArrayRef (data v + (N + N')) M'),
    (mkArrayRef (data v + N) (size v - N)).
  split; [apply slice_in_range; assumption|].
  split.
  { rewrite slice_in_range; try assumption.
    unfold data. simpl. do 2 f_equal. lia. }
  split; [apply slice_in_range; (assumption || lia)|].
  split; [unfold within, data; simpl; lia|].
  split; [unfold within, data, size in *; simpl; lia|].
  split.
  { unfold slice_from. rewrite (wrap_small _ Hrest).
    apply slice_in_range; (assumption || lia). }
  rewrite slice_in_range; try lia.
  - unfold data. simpl. do 2 f_equal. lia.
  - exact Hrest.
  - unfold size in *. simpl. lia.
Qed.

(** X5: [at] on a slice.  For [N + M <= size()], [at(i)] on [slice(N, M)]
    is [at(N + i)] on the view for [i < M], and fails with the error
    "Invalid index!" for every [i >= M], also where [N + i] is an index of
    the view. *)
Theorem at_on_slice (m : memory T) (v w : ArrayRef T) N M :
  well_formed v -> 0 <= N -> 0 <= M -> N + M <= size v ->
  slice v N M = Ret w ->
  (forall i, 0 <= i < M -> at_ m w i = at_ m v (N + i)) /\
  (forall i, M <= i -> at_ m w i = Throw (c10_Error "Invalid index!")).
Proof.
  intros Hv HN HM Hfit Hslice.
  rewrite slice_in_range in Hslice by assumption.
  injection Hslice as <-. split.
  - intros i Hi.
    rewrite !at_in_range by (unfold size in *; simpl; lia).
    unfold index, data. simpl. f_equal. lia.
  - intros i Hi. unfold at_. simpl.
    apply Z.ltb_ge in Hi. rewrite Hi. reflexivity.
Qed.

(** X6: [equals] decides the equality of the lists viewed: for an
    [operator==] that is equality, it returns [true] on two views of the
    same elements and [false] on two views of lists that differ in length
    or in an element. *)
Theorem equals_decides (eqb : T -> T -> bool) (m : memory T)
    (v RHS : ArrayRef T) l r :
  (forall x y, eqb x y = true <-> x = y) ->
  views m v l -> views m RHS r ->
  exists b, equals eqb m v RHS = Ret b /\ (b = true <-> l = r).
Proof.
  intros Heqb [Hlen Hl] [Hlen' Hr]. unfold equals.
  destruct (Length v =? Length RHS) eqn:Hsame; simpl.
  - apply Z.eqb_eq in Hsame.
    unfold begin, end_.
    replace (Z.to_nat (Data v + Length v - Data v)) with (length l) by lia.
    apply std_equal_lists; [exact Heqb|lia|exact Hl|exact Hr].
  - apply Z.eqb_neq in Hsame.
    exists false. split; [reflexivity|].
    split; [discriminate|]. intros ->. lia.
Qed.

(** X7: [vec()] returns the list viewed, and only that: on a well-formed
    view [vec()] returns [l] exactly when the view is a view of [l]; and the
    view made of a vector gives the vector back. *)
Theorem vec_round_trip (m : memory T) (v : ArrayRef T) (base : pointer) l :
  (well_formed v -> vec m v = Ret l <-> views m v l) /\
  (is_size_t (Z.of_nat (length l)) ->
   vec (memory_of_list base l) (of_vector base l) = Ret l).
Proof.
  split.
  - intros Hv. split; [apply vec_views, Hv | apply views_vec].
  - intros Hsize. apply views_vec. unfold of_vector.
    rewrite (wrap_small _ Hsize). apply views_memory_of_list.
Qed.



Lemma reverse_next_iter (it : reverse_iterator) (k : nat) :
  Nat.iter k reverse_next it = mk_reverse_iterator (current it - Z.of_nat k).
Proof.
  induction k as [|k IH]; simpl.
  - destruct it. simpl. f_equal. lia.
  - rewrite IH. unfold reverse_next. simpl. f_equal. lia.
Qed.

(** X9: iterating from [rbegin()] to [rend()] visits the elements of the
    list viewed in reverse order: after [k] steps from [rbegin()] the
    iterator designates the [k]-th element of the reversed list, and after
    [size()] steps it is [rend()]. *)
Theorem reverse_iteration (m : memory T) (v : ArrayRef T) l :
  views m v l ->
  (forall (k : nat) x,
      reverse l !! k = Some x ->
      reverse_deref m (Nat.iter k reverse_next (rbegin v)) = Ret x) /\
  Nat.iter (length l) reverse_next (rbegin v) = rend v.
Proof.
  intros Hviews. pose proof Hviews as [Hlen _]. split.
  - intros k x Hk.
    pose proof (lookup_lt_Some _ _ _ Hk) as Hlt.
    rewrite length_reverse in Hlt.
    rewrite reverse_lookup in Hk by exact Hlt.
    rewrite reverse_next_iter. unfold reverse_deref, rbegin, end_. simpl.
    replace (Data v + Length v - Z.of_nat k - 1)
      with (Data v + Z.of_nat (length l - S k)) by lia.
    apply (views_read m v l _ x Hviews Hk).
  - rewrite reverse_next_iter. unfold rbegin, rend, begin, end_. simpl.
    f_equal. lia.
Qed.

(** X10: as long as [N + M] does not overflow, the bounds check of
    [slice(N, M)] is exact: the call returns the view [(data() + N, M)]
    when [N + M <= size()] and fails with the error "Invalid specifier"
    when [N + M > size()]. *)
Theorem slice_checked_without_overflow (v : ArrayRef T) N M :
  well_formed v -> 0 <= N -> 0 <= M -> is_size_t (N + M) ->
  (N + M <= size v -> slice v N M = Ret (mkArrayRef (data v + N) M)) /\
  (size v < N + M -> slice v N M = Throw (c10_Error "Invalid specifier")).
Proof.
  intros Hv HN HM Hsum. split.
  - intros Hfit. apply slice_in_range; assumption.
  - intros Hover. apply slice_out_of_range; assumption.
Qed.

(** X11: [operator[]] makes no check.  On [slice(N, M)] of a view of a
    list, [[i]] is the element at position [N + i] of the list for every
    such position, also for [i >= M], where [at(i)] fails: an index past the
    end of the slice reads on in the view. *)
Theorem index_on_slice_unchecked (m : memory T) (v w : ArrayRef T) l N M :
  well_formed v -> views m v l ->
  0 <= N -> 0 <= M -> N + M <= size v ->
  slice v N M = Ret w ->
  forall (i : nat) x,
    l !! (Z.to_nat N + i)%nat = Some x ->
    index m w (Z.of_nat i) = Ret x /\
    (M <= Z.of_nat i ->
     at_ m w (Z.of_nat i) = Throw (c10_Error "Invalid index!")).
Proof.
  intros Hv Hviews HN HM Hfit Hslice i x Hx.
  rewrite slice_in_range in Hslice by assumption.
  injection Hslice as <-. split.
  - unfold index, data. simpl.
    replace (Data v + N + Z.of_nat i)
      with (Data v + Z.of_nat (Z.to_nat N + i)) by lia.
    apply (views_read m v l _ x Hviews Hx).
  - intros Hi. unfold at_. simpl.
    apply Z.ltb_ge in Hi. rewrite Hi. reflexivity.
Qed.

End ArrayRefExtras.

Section ArrayRefExtrasLP64.
Import ArrayRef sample.
Existing Instance LP64.

Lemma five_ref_well_formed : well_formed five_ref.
Proof. vm_compute. split; congruence. Qed.

Lemma five_ref_views : views five_memory five_ref five.
Proof. apply (views_memory_of_list 100 five). Qed.

Lemma front_back_elements_witness :
  front five_memory five_ref = Ret 10 /\ back five_memory five_ref = Ret 50.
Proof.
  apply (front_back_elements five_memory five_ref five 10 50);
    [apply five_ref_well_formed | apply five_ref_views
    | reflexivity | reflexivity].
Defined.

Lemma slice_views_part_witness :
  exists w,
    slice five_ref 1 3 = Ret w /\ size w = 3 /\ within five_ref w /\
    views five_memory w [20; 30; 40] /\
    vec five_memory w = Ret [20; 30; 40].
Proof.
  apply (slice_views_part five_memory five_ref five 1 3);
    [apply five_ref_well_formed | apply five_ref_views
    | lia | lia | simpl; lia].
Defined.

Lemma slice_from_views_suffix_witness :
  exists w,
    slice_from five_ref 2 = Ret w /\ size w = 5 - 2 /\ within five_ref w /\
    views five_memory w [30; 40; 50].
Proof.
  apply (slice_from_views_suffix five_memory five_ref five 2);
    [apply five_ref_well_formed | apply five_ref_views | simpl; lia].
Defined.

Lemma slice_of_slice_witness :
  exists w u s,
    slice five_ref 1 4 = Ret w /\ slice w 1 2 = Ret u /\
    slice five_ref (1 + 1) 2 = Ret u /\
    within w u /\ within five_ref u /\
    slice_from five_ref 1 = Ret s /\ slice s 0 4 = Ret w.
Proof.
  apply (slice_of_slice five_ref 1 4 1 2);
    [apply five_ref_well_formed | lia | lia | simpl; lia | lia | lia | lia].
Defined.

Lemma at_on_slice_witness :
  at_ five_memory (mkArrayRef 101 3) 1 = at_ five_memory five_ref (1 + 1) /\
  at_ five_memory (mkArrayRef 101 3) 3 = Throw (c10_Error "Invalid index!").
Proof.
  destruct (at_on_slice five_memory five_ref (mkArrayRef 101 3) 1 3)
    as [Hin Hout];
    [apply five_ref_well_formed | lia | lia | simpl; lia | reflexivity |].
  split; [apply Hin; lia | apply Hout; lia].
Defined.

Lemma equals_decides_witness :
  exists b,
    equals Z.eqb five_memory (mkArrayRef 100 2) (mkArrayRef 103 2) = Ret b /\
    (b = true <-> [10; 20] = [40; 50]).
Proof.
  apply (equals_decides Z.eqb five_memory (mkArrayRef 100 2) (mkArrayRef 103 2)
           [10; 20] [40; 50]);
    [apply Z.eqb_eq
    | apply (views_part five_memory five_ref five 0 2 five_ref_views);
      simpl; lia
    | apply (views_part five_memory five_ref five 3 2 five_ref_views);
      simpl; lia].
Defined.

Lemma vec_round_trip_witness :
  (vec five_memory five_ref = Ret five <-> views five_memory five_ref five) /\
  vec (memory_of_list 100 five) (of_vector 100 five) = Ret five.
Proof.
  destruct (vec_round_trip five_memory five_ref 100 five) as [Hiff Hvector].
  split; [apply Hiff, five_ref_well_formed|].
  apply Hvector. vm_compute. split; congruence.
Defined.



Lemma reverse_iteration_witness :
  (forall (k : nat) x,
      reverse five !! k = Some x ->
      reverse_deref five_memory (Nat.iter k reverse_next (rbegin five_ref))
      = Ret x) /\
  Nat.iter (length five) reverse_next (rbegin five_ref) = rend five_ref.
Proof.
  apply (reverse_iteration five_memory five_ref five), five_ref_views.
Defined.

Lemma slice_checked_without_overflow_witness :
  slice five_ref 2 3 = Ret (mkArrayRef 102 3) /\
  slice five_ref 2 4 = Throw (c10_Error "Invalid specifier").
Proof.
  destruct (slice_checked_without_overflow five_ref 2 3) as [Hfit _];
    [apply five_ref_well_formed | lia | lia | vm_compute; split; congruence |].
  destruct (slice_checked_without_overflow five_ref 2 4) as [_ Hover];
    [apply five_ref_well_formed | lia | lia | vm_compute; split; congruence |].
  split; [apply Hfit; simpl; lia | apply Hover; simpl; lia].
Defined.

Lemma index_on_slice_unchecked_witness :
  index five_memory (mkArrayRef 101 2) 3 = Ret 50 /\
  at_ five_memory (mkArrayRef 101 2) 3 = Throw (c10_Error "Invalid index!").
Proof.
  destruct (index_on_slice_unchecked five_memory five_ref (mkArrayRef 101 2)
              five 1 2 five_ref_well_formed five_ref_views)
    with (i := 3%nat) (x := 50) as [Hindex Hat];
    [lia | lia | simpl; lia | reflexivity | reflexivity |].
  split; [exact Hindex | apply Hat; lia].
Defined.

End ArrayRefExtrasLP64.
